(** * valgrind-notes: the two demonstration programs

    [memory_example.cpp] leaks one heap array and reads two uninitialised
    locations; [profiling_example.cpp] runs three tiers of numeric work.
    Each program is embedded below as the sequence of calls it is written
    as, over an explicit machine state, and the properties of the written
    specification are proved about these embeddings. *)

From stdpp Require Import gmap strings list.

Local Open Scope Z_scope.

(** ** Fixed-width integers

    [int] is 32 bits and [long long] 64 bits on the targets the programs are
    built for.  Arithmetic is on [Z] with the two's-complement wrap-around
    written out. *)

Definition wrap (w : Z) (z : Z) : Z :=
  (z + 2 ^ (w - 1)) `mod` 2 ^ w - 2 ^ (w - 1).

Definition INT_MAX : Z := 2147483647.
Definition INT_MIN : Z := -2147483648.

Definition int_add (a b : Z) : Z := wrap 32 (a + b).
Definition int_sub (a b : Z) : Z := wrap 32 (a - b).
Definition int_mul (a b : Z) : Z := wrap 32 (a * b).
(** [%] on [int] truncates toward zero, as [Z.rem] does. *)
Definition int_rem (a b : Z) : Z := Z.rem a b.
Definition ll_add (a b : Z) : Z := wrap 64 (a + b).

(** The values a counted loop [for (int i = lo; i < hi; ++i)] gives to [i]:
    [lo], [lo+1], ..., [hi-1], and none when [hi <= lo].  The increment never
    overflows, because it is only applied to an [i] below [hi]. *)
Definition for_range (lo hi : Z) : list Z := seqZ lo (hi - lo).

(** * memory_example.cpp *)
Module MemoryExample.

(** A heap block made by [new int[n]]: one cell per element, [None] while
    the element has never been written, and a flag cleared by [delete[]]. *)
Record block := Block { cells : list (option Z); live : bool }.

(** What a read yields: the bits found there, and whether the location had
    been initialised (the definedness bit a memory checker tracks). *)
Record value := Val { bits : Z; defined : bool }.

(** One operand of a [std::cout << ... << std::endl] chain. *)
Inductive token :=
| TStr (s : string)
| TPtr (a : nat)
| TInt (v : value).

(** The observable actions of the program, in the order they happen. *)
Inductive event :=
| EAlloc (a : nat) (n : nat)
| EStore (a : nat) (i : nat) (v : Z)
| ELoad (a : nat) (i : nat) (v : value)
| EFree (a : nat)
| EReadVar (v : value)
| EOut (line : list token).

(** Faults the memory operations can raise.  The program has no handler. *)
Inductive fault := InvalidPointer | OutOfBounds | UseAfterFree | InvalidFree.

Record state := State { heap : gmap nat block; log : list event }.

Definition initial_state : state := State ∅ [].

(** The bits found in storage that was never written.  The language leaves
    them indeterminate, so they are an input of the run. *)
Record garbage := Garbage { stack_word : Z; heap_word : nat → nat → Z }.

(** The effect of an event on the heap. *)
Definition apply_event (e : event) (h : gmap nat block) : gmap nat block :=
  match e with
  | EAlloc a n => <[a := Block (replicate n None) true]> h
  | EStore a i v => alter (λ b, Block (<[i := Some v]> (cells b)) (live b)) a h
  | EFree a => alter (λ b, Block (cells b) false) a h
  | ELoad _ _ _ | EReadVar _ | EOut _ => h
  end.

Definition replay (evs : list event) (h : gmap nat block) : gmap nat block :=
  foldl (λ h e, apply_event e h) h evs.

Definition record (e : event) (s : state) : state :=
  State (apply_event e (heap s)) (log s ++ [e]).

(** State and fault monad of the program. *)
Definition M (A : Type) : Type := state → fault + A * state.

#[global] Instance M_ret : MRet M := λ A x s, inr (x, s).
#[global] Instance M_bind : MBind M := λ A B f m s,
  match m s with
  | inl e => inl e
  | inr (x, s') => f x s'
  end.

Definition raise {A} (e : fault) : M A := λ _, inl e.
Definition emit (e : event) : M unit := λ s, inr ((), record e s).

(** The address the allocator hands out: one no block ever had. *)
Definition next_addr (s : state) : nat := fresh (dom (heap s)).

(** [new int[n]] *)
Definition new_int_array (n : nat) : M nat := λ s,
  let a := next_addr s in inr (a, record (EAlloc a n) s).

(** [p[i] = v] *)
Definition store (a i : nat) (v : Z) : M unit := λ s,
  match heap s !! a with
  | None => inl InvalidPointer
  | Some b =>
      if live b then
        if decide (i < length (cells b))%nat
        then inr ((), record (EStore a i v) s)
        else inl OutOfBounds
      else inl UseAfterFree
  end.

(** [p[i]] as an rvalue *)
Definition load (g : garbage) (a i : nat) : M value := λ s,
  match heap s !! a with
  | None => inl InvalidPointer
  | Some b =>
      if live b then
        match cells b !! i with
        | None => inl OutOfBounds
        | Some c =>
            let v := match c with
                     | Some z => Val z true
                     | None => Val (heap_word g a i) false
                     end in
            inr (v, record (ELoad a i v) s)
        end
      else inl UseAfterFree
  end.

(** [delete[] p] *)
Definition delete_array (a : nat) : M unit := λ s,
  match heap s !! a with
  | None => inl InvalidFree
  | Some b => if live b then inr ((), record (EFree a) s) else inl InvalidFree
  end.

(** Reading a local [int]: [None] is a variable declared without an
    initialiser. *)
Definition read_var (g : garbage) (x : option Z) : M value :=
  let v := match x with
           | Some z => Val z true
           | None => Val (stack_word g) false
           end in
  emit (EReadVar v);; mret v.

(** [std::cout << t1 << ... << std::endl] *)
Definition cout (line : list token) : M unit := emit (EOut line).

Definition cause_leak : M unit :=
  leaky_array ← new_int_array 10;
  store leaky_array 0 1;;
  cout [TStr "Leaky function called. Memory allocated at: "; TPtr leaky_array].

Definition msg_positive : string := "Uninitialized value is positive.".
Definition msg_not_positive : string :=
  "Uninitialized value is not positive (or garbage).".

Definition use_uninitialized_memory (g : garbage) : M unit :=
  let uninitialized_value : option Z := None in
  v ← read_var g uninitialized_value;
  (if bool_decide (bits v > 0)
   then cout [TStr msg_positive]
   else cout [TStr msg_not_positive]);;
  partially_initialized_array ← new_int_array 5;
  store partially_initialized_array 0 100;;
  x ← load g partially_initialized_array 1;
  cout [TStr "Value at index 1: "; TInt x; TStr " (potentially uninitialized)"];;
  delete_array partially_initialized_array.

Definition main (g : garbage) : M Z :=
  cout [TStr "Starting memory_example program."];;
  cause_leak;;
  use_uninitialized_memory g;;
  cout [TStr "memory_example program finished."];;
  mret 0.

(** *** Observations on a trace *)

Definition allocations (evs : list event) : list (nat * nat) :=
  omap (λ e, match e with EAlloc a n => Some (a, n) | _ => None end) evs.

Definition releases (evs : list event) : list nat :=
  omap (λ e, match e with EFree a => Some a | _ => None end) evs.

Definition stdout (evs : list event) : list (list token) :=
  omap (λ e, match e with EOut l => Some l | _ => None end) evs.

(** The values read from locations that were never initialised. *)
Definition undefined_reads (evs : list event) : list value :=
  omap (λ e, match e with
             | ELoad _ _ v | EReadVar v => if defined v then None else Some v
             | _ => None
             end) evs.

(** The values sent to the console that were never initialised. *)
Definition printed_undefined (evs : list event) : list value :=
  omap (λ t, match t with
             | TInt v => if defined v then None else Some v
             | _ => None
             end) (concat (stdout evs)).

(** The blocks that are allocated and not released. *)
Definition unreleased (h : gmap nat block) : gmap nat block :=
  filter (λ kb, live kb.2 = true) h.

(** *** The traces the two operations are shown to produce *)

Definition leak_line (a : nat) : list token :=
  [TStr "Leaky function called. Memory allocated at: "; TPtr a].

(** What [cause_leak] does when the allocator returns address [a]. *)
Definition leak_trace (a : nat) : list event :=
  [EAlloc a 10; EStore a 0 1; EOut (leak_line a)].

Definition leaked_block : block := Block (Some 1 :: replicate 9 None) true.

(** The message the comparison selects, given the bits in the scalar. *)
Definition branch_message (g : garbage) : string :=
  if bool_decide (stack_word g > 0) then msg_positive else msg_not_positive.

Definition index1_line (v : value) : list token :=
  [TStr "Value at index 1: "; TInt v; TStr " (potentially uninitialized)"].

(** What [use_uninitialized_memory] does when the allocator returns [a]. *)
Definition uninit_trace (g : garbage) (a : nat) : list event :=
  [EReadVar (Val (stack_word g) false);
   EOut [TStr (branch_message g)];
   EAlloc a 5;
   EStore a 0 100;
   ELoad a 1 (Val (heap_word g a 1) false);
   EOut (index1_line (Val (heap_word g a 1) false));
   EFree a].

#[global] Instance value_eq_dec : EqDecision value.
Proof. solve_decision. Defined.
#[global] Instance token_eq_dec : EqDecision token.
Proof. solve_decision. Defined.

(** The console lines that are one of the two branch messages. *)
Definition branch_lines (evs : list event) : list (list token) :=
  filter (λ l, l = [TStr msg_positive] ∨ l = [TStr msg_not_positive])
         (stdout evs).

(** What [main] does when the allocator returns [a] and then [b]. *)
Definition main_trace (g : garbage) (a b : nat) : list event :=
  [EOut [TStr "Starting memory_example program."]]
  ++ leak_trace a
  ++ uninit_trace g b
  ++ [EOut [TStr "memory_example program finished."]].

End MemoryExample.

(** * profiling_example.cpp *)

(** The operations on [double] the program uses, from the language and from
    [<cmath>].  They are not part of the repository; the program is embedded
    over any implementation of them. *)
Class FloatOps := {
  double : Type;
  (** a decimal literal: [lit m e] is the [double] nearest to [m * 10^e] *)
  lit : Z → Z → double;
  (** [static_cast<double>] of an [int] *)
  of_int : Z → double;
  fadd : double → double → double;
  fmul : double → double → double;
  fsqrt : double → double;
  fpow : double → double → double;
  fsin : double → double;
  fcos : double → double;
  flog : double → double;
  (** [static_cast<long long>]: the value with its fraction discarded *)
  to_long_long : double → Z
}.

(** The term instance: a [double] is the expression that computed it, so a
    result shows every operation applied and the argument it was applied
    to.  The conversion to [long long] cannot be read off a term and is
    left as a parameter. *)
Inductive fexpr :=
| FLit (m e : Z)
| FOfInt (z : Z)
| FAdd (a b : fexpr)
| FMul (a b : fexpr)
| FSqrt (a : fexpr)
| FPow (a b : fexpr)
| FSin (a : fexpr)
| FCos (a : fexpr)
| FLog (a : fexpr).

Definition term_ops (trunc : fexpr → Z) : FloatOps := {|
  double := fexpr;
  lit := FLit;
  of_int := FOfInt;
  fadd := FAdd;
  fmul := FMul;
  fsqrt := FSqrt;
  fpow := FPow;
  fsin := FSin;
  fcos := FCos;
  flog := FLog;
  to_long_long := trunc
|}.

(** The arguments of the [log] calls in a term, in the order the calls are
    made. *)
Fixpoint log_args (t : fexpr) : list fexpr :=
  match t with
  | FLit _ _ | FOfInt _ => []
  | FAdd a b | FMul a b | FPow a b => log_args a ++ log_args b
  | FSqrt a | FSin a | FCos a => log_args a
  | FLog a => log_args a ++ [a]
  end.

(** A conversion to [long long] for running the term instance on concrete
    inputs: the number of nodes of the term. *)
Fixpoint fsize (t : fexpr) : Z :=
  match t with
  | FLit _ _ | FOfInt _ => 1
  | FAdd a b | FMul a b | FPow a b => 1 + fsize a + fsize b
  | FSqrt a | FSin a | FCos a | FLog a => 1 + fsize a
  end.

(** The operation at the head of a term. *)
Inductive op := OLit | OOfInt | OAdd | OMul | OSqrt | OPow | OSin | OCos | OLog.

#[global] Instance op_eq_dec : EqDecision op.
Proof. solve_decision. Defined.

Definition head (t : fexpr) : op :=
  match t with
  | FLit _ _ => OLit
  | FOfInt _ => OOfInt
  | FAdd _ _ => OAdd
  | FMul _ _ => OMul
  | FSqrt _ => OSqrt
  | FPow _ _ => OPow
  | FSin _ => OSin
  | FCos _ => OCos
  | FLog _ => OLog
  end.

(** How many times operation [o] was applied to compute a term. *)
Fixpoint count_op (o : op) (t : fexpr) : nat :=
  ((if decide (head t = o) then 1 else 0) +
   match t with
   | FLit _ _ | FOfInt _ => 0
   | FAdd a b | FMul a b | FPow a b => count_op o a + count_op o b
   | FSqrt a | FSin a | FCos a | FLog a => count_op o a
   end)%nat.

(** The operations one iteration of the loop of [moderate_work] applies:
    one product of a sine and a cosine and a hundred logarithms, each with
    its conversions from [int], and the additions into the total. *)
Definition iteration_ops (o : op) : nat :=
  match o with
  | OAdd => 101
  | OMul | OSin | OCos => 1
  | OOfInt => 102
  | OLog => 100
  | OLit | OSqrt | OPow => 0
  end.

Module ProfilingExample.

Inductive token :=
| TStr (s : string)
| TLong (z : Z).

(** The three workload functions, as entered. *)
Inductive call :=
| CIntensive (iterations : Z)
| CModerate (base repetitions : Z)
| CSimple (id : Z).

Inductive event :=
| ECall (c : call)
| ESleep (ms : Z)
| EOut (line : list token).

(** The program only appends to its trace: a state monad on the trace. *)
Definition Prof (A : Type) : Type := list event → A * list event.

#[global] Instance Prof_ret : MRet Prof := λ A x w, (x, w).
#[global] Instance Prof_bind : MBind Prof := λ A B f m w,
  let '(x, w') := m w in f x w'.

Definition emit (e : event) : Prof unit := λ w, ((), w ++ [e]).
(** Entry of a workload function, as a call counter would record it. *)
Definition enter (c : call) : Prof unit := emit (ECall c).
Definition cout (line : list token) : Prof unit := emit (EOut line).
(** [std::this_thread::sleep_for(std::chrono::milliseconds(ms))] *)
Definition sleep_for (ms : Z) : Prof unit := emit (ESleep ms).

(** A counted loop over a local accumulator. *)
Definition for_acc {S : Type} (lo hi : Z) (body : Z → S → S) (s : S) : S :=
  foldl (λ s i, body i s) s (for_range lo hi).

(** A counted loop of effectful iterations. *)
Definition for_each (lo hi : Z) (body : Z → Prof unit) : Prof unit :=
  foldr (λ i rest, body i;; rest) (mret ()) (for_range lo hi).

Section Program.
Context {F : FloatOps}.

(** The value added to [sum] at outer index [i], inner index [j]. *)
Definition intensive_term (i j : Z) : Z :=
  to_long_long
    (fadd (fsqrt (fmul (of_int j) (of_int i)))
          (fpow (lit 10001 (-4)) (of_int j))).

Definition intensive_computation (iterations : Z) : Prof Z :=
  enter (CIntensive iterations);;
  let sum :=
    for_acc 0 iterations (λ i sum,
      for_acc 1 2000 (λ j sum, ll_add sum (intensive_term i j)) sum) 0 in
  (if bool_decide (iterations < 10)
   then sleep_for (int_mul 50 iterations)
   else mret ());;
  mret sum.

Definition moderate_work (base repetitions : Z) : Prof double :=
  enter (CModerate base repetitions);;
  let result :=
    for_acc 0 repetitions (λ i result,
      let result :=
        fadd result (fmul (fsin (of_int (int_add base i)))
                          (fcos (of_int (int_sub base i)))) in
      for_acc 0 100 (λ k result,
        fadd result (flog (of_int (int_add (int_add k base) 1)))) result)
      (lit 0 0) in
  mret result.

Definition simple_task (id : Z) : Prof unit :=
  enter (CSimple id);;
  let val := of_int id in
  let val := fsqrt (fadd val (lit 1 0)) in
  if bool_decide (int_rem id 100 = 0) then mret () else mret ().

Definition run_simulation : Prof unit :=
  cout [TStr "Starting intensive computation..."];;
  intensive_result ← intensive_computation 200;
  cout [TStr "Intensive computation finished. Result: "; TLong intensive_result];;
  cout [TStr "Starting moderate work series..."];;
  for_each 0 50 (λ i,
    mod_res ← moderate_work (int_mul i 10) 100;
    if bool_decide (int_rem i 10 = 0) then mret () else mret ());;
  cout [TStr "Moderate work finished."];;
  cout [TStr "Starting simple tasks..."];;
  for_each 0 1000 (λ i, simple_task i);;
  cout [TStr "Simple tasks finished."].

(** [start_time] and [end_time] are the two readings of the clock, in
    nanoseconds; the cast to milliseconds truncates. *)
Definition main (start_time end_time : Z) : Prof Z :=
  run_simulation;;
  let duration := Z.quot (end_time - start_time) 1000000 in
  cout [TStr "Total execution time: "; TLong duration; TStr " ms"];;
  mret 0.

(** *** The written description of the two numeric functions *)

Definition Zsum (f : Z → Z) (l : list Z) : Z := foldr (λ x acc, f x + acc) 0 l.

(** The term as the description writes it, the integer-truncated value of
    [sqrt(j * i) + 1.0001^j]: the product of [j] and [i] under the square
    root, [1.0001] raised to the power [j], their sum, and its fraction
    discarded by the conversion to a 64-bit integer.  The product is of the
    two indices as [double]s, the operands the square root is given. *)
Definition spec_term (i j : Z) : Z :=
  let product := fmul (of_int j) (of_int i) in
  let power := fpow (lit 10001 (-4)) (of_int j) in
  to_long_long (fadd (fsqrt product) power).

(** The sum over [i] from [0] to [n-1] and [j] from [1] to [1999] of that
    term, held in 64 bits. *)
Definition intensive_spec (n : Z) : Z :=
  wrap 64 (Zsum (λ i, Zsum (λ j, spec_term i j) (seqZ 1 1999)) (seqZ 0 n)).

(** The total after the logarithms of [k + base + 1] for the first [count]
    values of [k] have been added to [total]. *)
Fixpoint add_logs (base : Z) (count : nat) (total : double) : double :=
  match count with
  | O => total
  | S k => fadd (add_logs base k total)
                (flog (of_int (int_add (int_add (Z.of_nat k) base) 1)))
  end.

(** The total after [reps] iterations: iteration [i] adds the product of
    sine and cosine, then the hundred logarithms. *)
Fixpoint moderate_spec (base : Z) (reps : nat) : double :=
  match reps with
  | O => lit 0 0
  | S i =>
      add_logs base 100
        (fadd (moderate_spec base i)
              (fmul (fsin (of_int (int_add base (Z.of_nat i))))
                    (fcos (of_int (int_sub base (Z.of_nat i))))))
  end.

End Program.

Definition calls (evs : list event) : list call :=
  omap (λ e, match e with ECall c => Some c | _ => None end) evs.

Definition stdout (evs : list event) : list (list token) :=
  omap (λ e, match e with EOut l => Some l | _ => None end) evs.

Definition is_intensive (c : call) : bool :=
  match c with CIntensive _ => true | _ => false end.
Definition is_moderate (c : call) : bool :=
  match c with CModerate _ _ => true | _ => false end.
Definition is_simple (c : call) : bool :=
  match c with CSimple _ => true | _ => false end.

(** *** The trace the orchestration is shown to produce *)

Definition moderate_calls : list call :=
  (λ i, CModerate (10 * i) 100) <$> seqZ 0 50.
Definition simple_calls : list call := CSimple <$> seqZ 0 1000.

Definition banners (intensive_result : Z) : list (list token) :=
  [[TStr "Starting intensive computation..."];
   [TStr "Intensive computation finished. Result: "; TLong intensive_result];
   [TStr "Starting moderate work series..."];
   [TStr "Moderate work finished."];
   [TStr "Starting simple tasks..."];
   [TStr "Simple tasks finished."]].

Definition simulation_trace (intensive_result : Z) : list event :=
  [EOut [TStr "Starting intensive computation..."];
   ECall (CIntensive 200);
   EOut [TStr "Intensive computation finished. Result: "; TLong intensive_result];
   EOut [TStr "Starting moderate work series..."]]
  ++ (ECall <$> moderate_calls)
  ++ [EOut [TStr "Moderate work finished."];
      EOut [TStr "Starting simple tasks..."]]
  ++ (ECall <$> simple_calls)
  ++ [EOut [TStr "Simple tasks finished."]].

(** The hundred arguments one iteration of [moderate_work] gives to [log],
    when nothing overflows. *)
Definition log_batch (base : Z) : list fexpr :=
  (λ k, FOfInt (k + base + 1)) <$> seqZ 0 100.

Definition sleeps (evs : list event) : list Z :=
  omap (λ e, match e with ESleep ms => Some ms | _ => None end) evs.

(** The last line [main] prints. *)
Definition time_line (duration : Z) : list token :=
  [TStr "Total execution time: "; TLong duration; TStr " ms"].

(** The total of [moderate_work] with the sums inside the calls taken in the
    integers, without wrap-around. *)
Section MathSums.
Context {F : FloatOps}.

Fixpoint add_logs_math (base : Z) (count : nat) (total : double) : double :=
  match count with
  | O => total
  | S k => fadd (add_logs_math base k total)
                (flog (of_int (Z.of_nat k + base + 1)))
  end.

Fixpoint moderate_math (base : Z) (reps : nat) : double :=
  match reps with
  | O => lit 0 0
  | S i =>
      add_logs_math base 100
        (fadd (moderate_math base i)
              (fmul (fsin (of_int (base + Z.of_nat i)))
                    (fcos (of_int (base - Z.of_nat i)))))
  end.

End MathSums.

End ProfilingExample.

(** * Facts about memory_example.cpp *)
Module MemoryFacts.
Import MemoryExample.

Section Runs.
Implicit Types (s : state) (g : garbage) (a i : nat).

Lemma next_addr_fresh s : heap s !! next_addr s = None.
Proof.
  unfold next_addr. apply (not_elem_of_dom (D:=gset nat)). apply is_fresh.
Qed.

Lemma next_addr_other s a b : heap s !! a = Some b → next_addr s ≠ a.
Proof. intros Ha E. rewrite <- E, next_addr_fresh in Ha. done. Qed.

Lemma bind_run {A B} (m : M A) (f : A → M B) s x s' :
  m s = inr (x, s') → (m ≫= f) s = f x s'.
Proof. intros E. unfold mbind, M_bind. by rewrite E. Qed.

Lemma store_run a i v s b :
  heap s !! a = Some b → live b = true → (i < length (cells b))%nat →
  store a i v s = inr ((), record (EStore a i v) s).
Proof.
  intros Hb Hl Hi. unfold store. rewrite Hb, Hl. by rewrite decide_True.
Qed.

Lemma load_run_undefined g a i s b :
  heap s !! a = Some b → live b = true → cells b !! i = Some None →
  load g a i s =
  inr (Val (heap_word g a i) false,
       record (ELoad a i (Val (heap_word g a i) false)) s).
Proof. intros Hb Hl Hi. unfold load. by rewrite Hb, Hl, Hi. Qed.

Lemma delete_array_run a s b :
  heap s !! a = Some b → live b = true →
  delete_array a s = inr ((), record (EFree a) s).
Proof. intros Hb Hl. unfold delete_array. by rewrite Hb, Hl. Qed.

Lemma branch_run s (c : bool) (l1 l2 : list token) :
  (if c then cout l1 else cout l2) s
  = inr ((), record (EOut (if c then l1 else l2)) s).
Proof. by destruct c. Qed.

Lemma cause_leak_run s :
  cause_leak s =
  inr ((), State (replay (leak_trace (next_addr s)) (heap s))
                 (log s ++ leak_trace (next_addr s))).
Proof.
  unfold cause_leak.
  erewrite bind_run by reflexivity.
  erewrite bind_run
    by (eapply store_run; [apply lookup_insert_eq | done | simpl; lia]).
  unfold cout, emit, record; simpl. by rewrite <- !app_assoc.
Qed.

Lemma use_uninitialized_memory_run g s :
  use_uninitialized_memory g s =
  inr ((), State (replay (uninit_trace g (next_addr s)) (heap s))
                 (log s ++ uninit_trace g (next_addr s))).
Proof.
  unfold use_uninitialized_memory.
  erewrite bind_run by reflexivity.
  erewrite bind_run by apply branch_run.
  erewrite bind_run by reflexivity.
  erewrite bind_run
    by (eapply store_run; [apply lookup_insert_eq | done | simpl; lia]).
  erewrite bind_run.
  2:{ eapply load_run_undefined; simpl.
      - rewrite lookup_alter_eq, lookup_insert_eq. reflexivity.
      - done.
      - done. }
  erewrite bind_run by reflexivity.
  erewrite delete_array_run.
  2:{ simpl. rewrite lookup_alter_eq, lookup_insert_eq. reflexivity. }
  2: done.
  unfold record, uninit_trace, branch_message, index1_line; simpl.
  rewrite <- !app_assoc; simpl.
  by destruct (bool_decide (stack_word g > 0)).
Qed.

Lemma replay_leak_trace (h : gmap nat block) a :
  replay (leak_trace a) h = <[a := leaked_block]> h.
Proof. unfold replay, leak_trace; simpl. by rewrite alter_insert_eq. Qed.

Lemma replay_uninit_trace g (h : gmap nat block) a :
  replay (uninit_trace g a) h
  = <[a := Block (Some 100 :: replicate 4 None) false]> h.
Proof. unfold replay, uninit_trace; simpl. by rewrite !alter_insert_eq. Qed.

Lemma main_run g s : ∃ s', main g s = inr (0, s').
Proof.
  unfold main.
  erewrite bind_run by reflexivity.
  erewrite bind_run by apply cause_leak_run.
  erewrite bind_run by apply use_uninitialized_memory_run.
  erewrite bind_run by reflexivity.
  by eexists.
Qed.

(** At exit of a run from the empty heap, the report of unreleased blocks
    holds the ten-element array and nothing else. *)
Lemma main_leak_report g :
  ∃ s', main g initial_state = inr (0, s') ∧
        unreleased (heap s') = {[ 0%nat := leaked_block ]}.
Proof.
  eexists. split.
  - unfold main.
    erewrite bind_run by reflexivity.
    erewrite bind_run by apply cause_leak_run.
    erewrite bind_run by apply use_uninitialized_memory_run.
    erewrite bind_run by reflexivity.
    reflexivity.
  - unfold record; cbn [heap apply_event].
    rewrite replay_uninit_trace, replay_leak_trace.
    vm_compute. reflexivity.
Qed.

End Runs.

(** A run with the scalar holding 7 and the heap holding 42 everywhere. *)
Example main_console_positive :
  let g := Garbage 7 (λ _ _, 42) in
  (λ r, match r with inl _ => None | inr (x, s) => Some (x, stdout (log s)) end)
    (main g initial_state)
  = Some (0,
      [[TStr "Starting memory_example program."];
       leak_line 0;
       [TStr msg_positive];
       index1_line (Val 42 false);
       [TStr "memory_example program finished."]]).
Proof. vm_compute. reflexivity. Qed.

Example main_console_not_positive :
  let g := Garbage (-3) (λ _ _, 0) in
  (λ r, match r with inl _ => None | inr (x, s) => Some (x, stdout (log s)) end)
    (main g initial_state)
  = Some (0,
      [[TStr "Starting memory_example program."];
       leak_line 0;
       [TStr msg_not_positive];
       index1_line (Val 0 false);
       [TStr "memory_example program finished."]]).
Proof. vm_compute. reflexivity. Qed.

(** C1. Every invocation of [cause_leak], from any state, makes one
    allocation of 10 integers at a fresh address [a], stores 1 at index 0,
    prints one line carrying [a], and releases nothing; and through the rest
    of the run (the remainder of [main]) the block at [a] is never released:
    it is still live, with its contents, when [main] returns. *)
Theorem cause_leak_never_released (g : garbage) (s : state) :
  let a := next_addr s in
  heap s !! a = None ∧
  ∃ s1, cause_leak s = inr ((), s1) ∧
    log s1 = log s ++ leak_trace a ∧
    heap s1 = replay (leak_trace a) (heap s) ∧
    allocations (leak_trace a) = [(a, 10%nat)] ∧
    releases (leak_trace a) = [] ∧
    stdout (leak_trace a) = [leak_line a] ∧
    heap s1 !! a = Some leaked_block ∧
    ∃ s2 rest,
      (use_uninitialized_memory g;;
       cout [TStr "memory_example program finished."];; mret 0) s1
        = inr (0, s2) ∧
      log s2 = log s1 ++ rest ∧
      (a ∉ releases rest) ∧
      heap s2 !! a = Some leaked_block.
Proof.
  intros a. split; [apply next_addr_fresh|].
  eexists. split; [apply cause_leak_run|]. cbn [heap log].
  fold a. rewrite replay_leak_trace.
  assert (Ha : <[a:=leaked_block]> (heap s) !! a = Some leaked_block)
    by apply lookup_insert_eq.
  repeat (split; [done|]).
  set (s1 := State _ _).
  assert (Hb : next_addr s1 ≠ a) by (eapply next_addr_other; exact Ha).
  eexists _, (uninit_trace g (next_addr s1)
              ++ [EOut [TStr "memory_example program finished."]]).
  split; [|split; [|split]].
  - erewrite bind_run by apply use_uninitialized_memory_run.
    erewrite bind_run by reflexivity. reflexivity.
  - simpl. by rewrite <- !app_assoc.
  - simpl. rewrite list_elem_of_singleton. congruence.
  - unfold record; cbn [heap apply_event]. rewrite replay_uninit_trace.
    by rewrite lookup_insert_ne.
Qed.

(** C2. Whatever bits the uninitialised scalar and the heap hold,
    [use_uninitialized_memory] prints exactly one branch message, one of the
    two fixed ones (the positive one exactly when the scalar's bits are
    positive), followed by the index-1 line.  Two indeterminate values are
    read, the scalar and element 1; exactly one indeterminate value, element
    1, is read and printed. *)
Theorem uninitialized_read_prints_one_message (g : garbage) (s : state) :
  let a := next_addr s in
  let evs := uninit_trace g a in
  let v := Val (heap_word g a 1) false in
  ∃ s', use_uninitialized_memory g s = inr ((), s') ∧
    log s' = log s ++ evs ∧
    stdout evs = [[TStr (branch_message g)]; index1_line v] ∧
    branch_lines evs = [[TStr (branch_message g)]] ∧
    (branch_message g = msg_positive ∨ branch_message g = msg_not_positive) ∧
    (branch_message g = msg_positive ↔ stack_word g > 0) ∧
    undefined_reads evs = [Val (stack_word g) false; v] ∧
    printed_undefined evs = [v].
Proof.
  intros a evs v.
  eexists. split; [apply use_uninitialized_memory_run|].
  split; [done|]. split; [done|].
  subst evs v. unfold uninit_trace, branch_message.
  destruct (bool_decide_reflect (stack_word g > 0)) as [Hpos|Hneg].
  - repeat split; try done; auto.
  - repeat split; try done; auto.
Qed.

(** C3. [use_uninitialized_memory] makes exactly one allocation, of 5
    integers, at a fresh address [a]; right after the allocation all five
    elements are indeterminate, and right after the store that follows it
    index 0 is 100 and indices 1 to 4 are still indeterminate; element 1 is
    then read and printed; and the block is released exactly once, as the
    last action before the function returns. *)
Theorem partially_initialized_array_released_once (g : garbage) (s : state) :
  let a := next_addr s in
  let evs := uninit_trace g a in
  let v := Val (heap_word g a 1) false in
  ∃ s', use_uninitialized_memory g s = inr ((), s') ∧
    log s' = log s ++ evs ∧
    heap s' = replay evs (heap s) ∧
    heap s !! a = None ∧
    allocations evs = [(a, 5%nat)] ∧
    releases evs = [a] ∧
    replay (take 3 evs) (heap s) !! a
      = Some (Block [None; None; None; None; None] true) ∧
    replay (take 4 evs) (heap s) !! a
      = Some (Block [Some 100; None; None; None; None] true) ∧
    drop 4 evs = [ELoad a 1 v; EOut (index1_line v); EFree a] ∧
    heap s' !! a = Some (Block [Some 100; None; None; None; None] false).
Proof.
  intros a evs v.
  eexists. split; [apply use_uninitialized_memory_run|].
  cbn [heap log]. fold a evs.
  repeat (split; [first [done | apply next_addr_fresh]|]).
  split; [|split; [|split]].
  - cbn. apply lookup_insert_eq.
  - cbn. by rewrite lookup_alter_eq, lookup_insert_eq.
  - done.
  - subst evs. rewrite replay_uninit_trace. apply lookup_insert_eq.
Qed.

(** *** Accounting of blocks over whole operations *)

Lemma unreleased_insert_live (h : gmap nat block) (a : nat) (b : block) :
  live b = true → unreleased (<[a := b]> h) = <[a := b]> (unreleased h).
Proof. intros Hb. unfold unreleased. by apply map_filter_insert_True. Qed.

Lemma unreleased_insert_freed (h : gmap nat block) (a : nat) (b : block) :
  h !! a = None → live b = false → unreleased (<[a := b]> h) = unreleased h.
Proof.
  intros Ha Hb. unfold unreleased.
  rewrite map_filter_insert_False by (cbn; congruence).
  by rewrite delete_id.
Qed.

Lemma main_run_trace (g : garbage) (s : state) :
  let a := next_addr s in
  let b := next_addr (State (<[a := leaked_block]> (heap s)) []) in
  main g s =
  inr (0, State (<[b := Block (Some 100 :: replicate 4 None) false]>
                   (<[a := leaked_block]> (heap s)))
                (log s ++ main_trace g a b)).
Proof.
  intros a b. unfold main.
  erewrite bind_run by reflexivity.
  erewrite bind_run by apply cause_leak_run.
  erewrite bind_run by apply use_uninitialized_memory_run.
  erewrite bind_run by reflexivity.
  unfold mret, M_ret, record, main_trace; cbn [heap log apply_event].
  change (next_addr (State (heap s) _)) with a.
  rewrite replay_leak_trace.
  change (next_addr (State (<[a:=leaked_block]> (heap s)) _)) with b.
  rewrite replay_uninit_trace.
  by rewrite <- !app_assoc.
Qed.

(** X1. Each call of [cause_leak] adds exactly one block to the unreleased
    ones, the new ten-element array, and leaves every other block as it
    was: leaks accumulate, one per call. *)
Theorem cause_leak_adds_one_unreleased (s : state) :
  let a := next_addr s in
  ∃ s1, cause_leak s = inr ((), s1) ∧
    unreleased (heap s1) = <[a := leaked_block]> (unreleased (heap s)) ∧
    size (unreleased (heap s1)) = S (size (unreleased (heap s))) ∧
    ∀ k, k ≠ a → heap s1 !! k = heap s !! k.
Proof.
  intros a. eexists. split; [apply cause_leak_run|].
  cbn [heap]. fold a. rewrite replay_leak_trace.
  rewrite unreleased_insert_live by done.
  split; [done|]. split.
  - apply map_size_insert_None. unfold unreleased.
    apply map_lookup_filter_None_2. left. apply next_addr_fresh.
  - intros k Hk. by rewrite lookup_insert_ne.
Qed.

(** X2. [use_uninitialized_memory] leaks nothing: the unreleased blocks
    after the call are exactly those before it, and every block that existed
    before is unchanged. *)
Theorem use_uninitialized_memory_leaks_nothing (g : garbage) (s : state) :
  ∃ s', use_uninitialized_memory g s = inr ((), s') ∧
    unreleased (heap s') = unreleased (heap s) ∧
    ∀ k b, heap s !! k = Some b → heap s' !! k = Some b.
Proof.
  eexists. split; [apply use_uninitialized_memory_run|].
  cbn [heap]. rewrite replay_uninit_trace. split.
  - apply unreleased_insert_freed; [apply next_addr_fresh | done].
  - intros k b Hk. rewrite lookup_insert_ne; [done|].
    by apply next_addr_other with b.
Qed.

(** X3. A run of [main], from any state, makes two allocations, of 10 and of
    5 integers, at distinct addresses, releases only the second, and so
    leaves exactly one more unreleased block than it found: the ten-element
    array. *)
Theorem main_leaks_exactly_one_block (g : garbage) (s : state) :
  let a := next_addr s in
  ∃ s' b evs, main g s = inr (0, s') ∧
    log s' = log s ++ evs ∧
    a ≠ b ∧
    allocations evs = [(a, 10%nat); (b, 5%nat)] ∧
    releases evs = [b] ∧
    unreleased (heap s') = <[a := leaked_block]> (unreleased (heap s)).
Proof.
  intros a.
  set (b := next_addr (State (<[a := leaked_block]> (heap s)) [])).
  assert (Hab : a ≠ b).
  { intros E. symmetry in E. revert E.
    apply next_addr_other with leaked_block. cbn [heap].
    apply lookup_insert_eq. }
  eexists _, b, (main_trace g a b).
  split; [apply main_run_trace|]. cbn [heap log].
  repeat (split; [done|]).
  pose proof (next_addr_fresh (State (<[a := leaked_block]> (heap s)) []))
    as Hfresh.
  cbn [heap] in Hfresh. fold b in Hfresh.
  by rewrite unreleased_insert_freed, unreleased_insert_live.
Qed.

(** X4. The console output of [main], from any state and for any
    indeterminate bits, is five lines in this order: the start banner, the
    leak report with the first address, one branch message, the index-1 line
    with the bits found in element 1 of the second array, and the finish
    banner. *)
Theorem main_console_output (g : garbage) (s : state) :
  let a := next_addr s in
  ∃ s' b evs, main g s = inr (0, s') ∧
    log s' = log s ++ evs ∧
    a ≠ b ∧
    stdout evs =
      [[TStr "Starting memory_example program."];
       leak_line a;
       [TStr (branch_message g)];
       index1_line (Val (heap_word g b 1) false);
       [TStr "memory_example program finished."]].
Proof.
  intros a.
  set (b := next_addr (State (<[a := leaked_block]> (heap s)) [])).
  assert (Hab : a ≠ b).
  { intros E. symmetry in E. revert E.
    apply next_addr_other with leaked_block. cbn [heap].
    apply lookup_insert_eq. }
  eexists _, b, (main_trace g a b).
  split; [apply main_run_trace|]. cbn [log].
  repeat (split; [done|]). reflexivity.
Qed.

End MemoryFacts.

(** * Facts about fixed-width arithmetic *)

Lemma wrap_add_l w a b : wrap w (wrap w a + b) = wrap w (a + b).
Proof.
  unfold wrap. f_equal.
  replace ((a + 2 ^ (w - 1)) `mod` 2 ^ w - 2 ^ (w - 1) + b + 2 ^ (w - 1))
    with ((a + 2 ^ (w - 1)) `mod` 2 ^ w + b) by lia.
  rewrite Zplus_mod_idemp_l. f_equal. lia.
Qed.

Lemma wrap_idemp w a : wrap w (wrap w a) = wrap w a.
Proof.
  rewrite <- (Z.add_0_r (wrap w a)) at 1.
  rewrite wrap_add_l. by rewrite Z.add_0_r.
Qed.

Lemma wrap_small_32 z : INT_MIN ≤ z ≤ INT_MAX → wrap 32 z = z.
Proof.
  unfold wrap, INT_MIN, INT_MAX. intros Hz.
  change (2 ^ (32 - 1)) with 2147483648. change (2 ^ 32) with 4294967296.
  rewrite Z.mod_small; lia.
Qed.

Lemma for_range_empty lo hi : hi ≤ lo → for_range lo hi = [].
Proof. intros. unfold for_range. apply seqZ_nil. lia. Qed.

Lemma for_range_nat (n : nat) : for_range 0 (Z.of_nat n) = seqZ 0 (Z.of_nat n).
Proof. unfold for_range. by rewrite Z.sub_0_r. Qed.

(** * Facts about profiling_example.cpp *)
Module ProfilingFacts.
Import ProfilingExample.

Section FloatFacts.
Context {F : FloatOps}.
Implicit Types (w : list event) (n i j base reps : Z).

Lemma prof_bind_run {A B} (m : Prof A) (f : A → Prof B) w x w' :
  m w = (x, w') → (m ≫= f) w = f x w'.
Proof. intros E. unfold mbind, Prof_bind. by rewrite E. Qed.

Lemma Zsum_nil (f : Z → Z) : Zsum f [] = 0.
Proof. reflexivity. Qed.

Lemma Zsum_cons (f : Z → Z) x l : Zsum f (x :: l) = f x + Zsum f l.
Proof. reflexivity. Qed.

(** Adding one term at a time with wrap-around gives the wrapped total. *)
Lemma running_sum (f : Z → Z) (l : list Z) (s : Z) :
  wrap 64 s = s →
  foldl (λ s j, ll_add s (f j)) s l = wrap 64 (s + Zsum f l).
Proof.
  revert s. induction l as [|x l IH]; intros s Hs; cbn [foldl].
  - by rewrite Zsum_nil, Z.add_0_r.
  - rewrite IH by apply wrap_idemp.
    unfold ll_add. rewrite wrap_add_l, Zsum_cons. f_equal. lia.
Qed.

Lemma outer_running_sum (l : list Z) (s : Z) :
  wrap 64 s = s →
  foldl (λ sum i,
           for_acc 1 2000 (λ j sum, ll_add sum (intensive_term i j)) sum) s l
  = wrap 64 (s + Zsum (λ i, Zsum (intensive_term i) (seqZ 1 1999)) l).
Proof.
  revert s. induction l as [|i l IH]; intros s Hs; cbn [foldl].
  - by rewrite Zsum_nil, Z.add_0_r.
  - unfold for_acc at 2. rewrite running_sum by done.
    change (for_range 1 2000) with (seqZ 1 1999).
    rewrite IH by apply wrap_idemp.
    rewrite wrap_add_l, Zsum_cons. f_equal. lia.
Qed.

(** The term the loop body adds is the term of the description. *)
Lemma intensive_term_written i j : intensive_term i j = spec_term i j.
Proof. reflexivity. Qed.

Lemma Zsum_ext (f g : Z → Z) (l : list Z) :
  (∀ x, f x = g x) → Zsum f l = Zsum g l.
Proof.
  intros Hfg. induction l as [|x l IH].
  - reflexivity.
  - by rewrite !Zsum_cons, Hfg, IH.
Qed.

Lemma intensive_spec_terms n :
  intensive_spec n
  = wrap 64 (Zsum (λ i, Zsum (intensive_term i) (seqZ 1 1999)) (seqZ 0 n)).
Proof.
  unfold intensive_spec.
  rewrite (Zsum_ext _ (λ i, Zsum (intensive_term i) (seqZ 1 1999)));
    [reflexivity|].
  intros i. apply Zsum_ext. intros j. symmetry. apply intensive_term_written.
Qed.

(** The call leaves its entry, and a sleep when [n < 10], on the trace; the
    value does not depend on the trace it starts from. *)
Lemma intensive_computation_run n w :
  intensive_computation n w =
  ((intensive_computation n []).1,
   w ++ ECall (CIntensive n)
     :: (if bool_decide (n < 10) then [ESleep (int_mul 50 n)] else [])).
Proof.
  unfold intensive_computation, mbind, Prof_bind, enter, sleep_for, emit,
    mret, Prof_ret.
  destruct (bool_decide (n < 10)); cbn [fst snd app].
  - by rewrite <- app_assoc.
  - done.
Qed.

Lemma intensive_computation_value n :
  (intensive_computation n []).1 = intensive_spec (Z.max 0 n).
Proof.
  assert (Hsum :
    for_acc 0 n (λ i sum,
      for_acc 1 2000 (λ j sum, ll_add sum (intensive_term i j)) sum) 0
    = intensive_spec (Z.max 0 n)).
  { unfold for_acc at 1. rewrite outer_running_sum by reflexivity.
    rewrite intensive_spec_terms.
    unfold for_range. rewrite Z.sub_0_r, Z.add_0_l.
    destruct (decide (0 ≤ n)).
    - by rewrite Z.max_r by lia.
    - rewrite Z.max_l by lia. by rewrite (seqZ_nil 0 n) by lia. }
  unfold intensive_computation, mbind, Prof_bind, enter, sleep_for, emit,
    mret, Prof_ret.
  destruct (bool_decide (n < 10)); exact Hsum.
Qed.

Lemma intensive_computation_result n w :
  (intensive_computation n w).1 = intensive_spec (Z.max 0 n).
Proof.
  rewrite intensive_computation_run. cbn [fst].
  apply intensive_computation_value.
Qed.

Lemma log_loop base (count : nat) (t : double) :
  foldl (λ result k, fadd result (flog (of_int (int_add (int_add k base) 1))))
        t (seqZ 0 (Z.of_nat count))
  = add_logs base count t.
Proof.
  induction count as [|c IH].
  - reflexivity.
  - rewrite seqZ_S, foldl_app, IH. cbn [foldl add_logs].
    by rewrite Z.add_0_l.
Qed.

Lemma moderate_loop base (r : nat) :
  for_acc 0 (Z.of_nat r) (λ i result,
    let result :=
      fadd result (fmul (fsin (of_int (int_add base i)))
                        (fcos (of_int (int_sub base i)))) in
    for_acc 0 100 (λ k result,
      fadd result (flog (of_int (int_add (int_add k base) 1)))) result)
    (lit 0 0)
  = moderate_spec base r.
Proof.
  unfold for_acc at 1. rewrite for_range_nat.
  induction r as [|r IH].
  - reflexivity.
  - rewrite seqZ_S, foldl_app, IH. cbn [foldl moderate_spec].
    rewrite Z.add_0_l. unfold for_acc.
    change (for_range 0 100) with (seqZ 0 (Z.of_nat 100)).
    apply log_loop.
Qed.

Lemma moderate_work_run base reps w :
  moderate_work base reps w =
  ((moderate_work base reps []).1, w ++ [ECall (CModerate base reps)]).
Proof. reflexivity. Qed.

Lemma moderate_work_value base reps :
  (moderate_work base reps []).1 = moderate_spec base (Z.to_nat reps).
Proof.
  unfold moderate_work, mbind, Prof_bind, enter, emit, mret, Prof_ret.
  cbn [fst].
  destruct (decide (0 ≤ reps)) as [Hr|Hr].
  - rewrite <- (Z2Nat.id reps) at 1 by done. apply moderate_loop.
  - replace (Z.to_nat reps) with 0%nat by lia.
    unfold for_acc at 1. by rewrite for_range_empty by lia.
Qed.

Lemma moderate_work_result base reps w :
  (moderate_work base reps w).1 = moderate_spec base (Z.to_nat reps).
Proof.
  rewrite moderate_work_run. cbn [fst]. apply moderate_work_value.
Qed.

Lemma simple_task_run id w :
  simple_task id w = ((), w ++ [ECall (CSimple id)]).
Proof.
  unfold simple_task, mbind, Prof_bind, enter, emit, mret, Prof_ret.
  by destruct (bool_decide (int_rem id 100 = 0)).
Qed.

Lemma for_each_run (body : Z → Prof unit) (e : Z → event) lo hi w :
  (∀ i w, body i w = ((), w ++ [e i])) →
  for_each lo hi body w = ((), w ++ (e <$> for_range lo hi)).
Proof.
  intros Hbody. unfold for_each.
  generalize (for_range lo hi) as l. intros l. revert w.
  induction l as [|i l IH]; intros w; cbn [foldr fmap list_fmap].
  - unfold mret, Prof_ret. by rewrite app_nil_r.
  - unfold mbind, Prof_bind at 1. rewrite Hbody, IH.
    by rewrite <- app_assoc.
Qed.

Lemma moderate_batch_run i w :
  (mod_res ← moderate_work (int_mul i 10) 100;
   if bool_decide (int_rem i 10 = 0) then mret () else mret ()) w
  = ((), w ++ [ECall (CModerate (int_mul i 10) 100)]).
Proof.
  erewrite prof_bind_run by apply moderate_work_run.
  by destruct (bool_decide (int_rem i 10 = 0)).
Qed.

Lemma run_simulation_run w :
  run_simulation w =
  ((), w ++ simulation_trace (intensive_computation 200 []).1).
Proof.
  unfold run_simulation.
  erewrite prof_bind_run by reflexivity.
  erewrite prof_bind_run by apply intensive_computation_run.
  erewrite prof_bind_run by reflexivity.
  erewrite prof_bind_run by reflexivity.
  erewrite prof_bind_run
    by apply (for_each_run _ (λ i, ECall (CModerate (int_mul i 10) 100))),
             moderate_batch_run.
  erewrite prof_bind_run by reflexivity.
  erewrite prof_bind_run by reflexivity.
  erewrite prof_bind_run
    by apply (for_each_run _ (λ i, ECall (CSimple i))), simple_task_run.
  unfold cout, emit. f_equal. rewrite <- !app_assoc.
  generalize (intensive_computation 200 []).1 as r. intros r.
  f_equal.
Qed.

Lemma calls_simulation_trace (r : Z) :
  calls (simulation_trace r) = CIntensive 200 :: moderate_calls ++ simple_calls.
Proof. vm_compute. reflexivity. Qed.

Lemma profiling_main_run start_time end_time w :
  (main start_time end_time w).1 = 0.
Proof.
  unfold main.
  erewrite prof_bind_run by apply run_simulation_run.
  reflexivity.
Qed.

End FloatFacts.

(** The [log] calls, read off the term instance. *)
Section LogArguments.
Variable trunc : fexpr → Z.

Lemma log_args_add_logs base (count : nat) (t : fexpr) :
  log_args (add_logs (F := term_ops trunc) base count t)
  = log_args t ++ ((λ k, FOfInt (int_add (int_add k base) 1))
                     <$> seqZ 0 (Z.of_nat count)).
Proof.
  induction count as [|c IH].
  - by rewrite app_nil_r.
  - rewrite seqZ_S, fmap_app.
    cbn [add_logs fadd flog of_int term_ops log_args].
    rewrite IH, Z.add_0_l. cbn [fmap list_fmap app].
    by rewrite <- app_assoc.
Qed.

Lemma log_batch_in_range base :
  0 ≤ base ≤ INT_MAX - 100 →
  (λ k, FOfInt (int_add (int_add k base) 1)) <$> seqZ 0 100 = log_batch base.
Proof.
  intros Hb. unfold log_batch. apply list_fmap_ext.
  intros i k Hk. apply lookup_seqZ in Hk as [-> Hi].
  unfold int_add, INT_MAX in *.
  rewrite (wrap_small_32 (0 + Z.of_nat i + base))
    by (unfold INT_MIN, INT_MAX; lia).
  by rewrite wrap_small_32 by (unfold INT_MIN, INT_MAX; lia).
Qed.

Lemma log_args_moderate_spec base (r : nat) :
  0 ≤ base ≤ INT_MAX - 100 →
  log_args (moderate_spec (F := term_ops trunc) base r)
  = mjoin (replicate r (log_batch base)).
Proof.
  intros Hb. induction r as [|r IH].
  - reflexivity.
  - cbn [moderate_spec]. rewrite log_args_add_logs.
    change (Z.of_nat 100) with 100. rewrite log_batch_in_range by done.
    cbn [fadd fmul fsin fcos of_int term_ops log_args].
    rewrite IH, !app_nil_r.
    rewrite replicate_S_end, join_app.
    change (mjoin [log_batch base]) with (log_batch base ++ []).
    by rewrite app_nil_r.
Qed.

Lemma log_batch_at_least_one base :
  0 ≤ base →
  Forall (λ t, ∃ k, 0 ≤ k ≤ 99 ∧ t = FOfInt (k + base + 1) ∧ 1 ≤ k + base + 1)
         (log_batch base).
Proof.
  intros Hb. unfold log_batch. apply Forall_fmap, Forall_seqZ.
  intros k Hk. exists k. repeat split; lia.
Qed.

End LogArguments.

Lemma moderate_call_bases (b r : Z) :
  CModerate b r ∈ CIntensive 200 :: moderate_calls ++ simple_calls →
  ∃ i, 0 ≤ i ≤ 49 ∧ b = 10 * i ∧ r = 100.
Proof.
  rewrite elem_of_cons, elem_of_app. intros [Hc|[Hc|Hc]].
  - discriminate Hc.
  - apply list_elem_of_fmap in Hc as (i & Hi & Hin).
    apply elem_of_seqZ in Hin. injection Hi as -> ->.
    exists i. repeat split; lia.
  - apply list_elem_of_fmap in Hc as (i & Hi & _). discriminate Hi.
Qed.

(** *** Runs of the term instance on small inputs *)

Example intensive_computation_1 :
  intensive_computation (F := term_ops fsize) 1 []
  = (15992, [ECall (CIntensive 1); ESleep 50]).
Proof. vm_compute. reflexivity. Qed.

Example intensive_computation_0 :
  intensive_computation (F := term_ops fsize) 0 []
  = (0, [ECall (CIntensive 0); ESleep 0]).
Proof. vm_compute. reflexivity. Qed.

Example intensive_computation_12_trace :
  (intensive_computation (F := term_ops fsize) 12 []).2
  = [ECall (CIntensive 12)].
Proof. vm_compute. reflexivity. Qed.

Example moderate_work_0 :
  moderate_work (F := term_ops fsize) 7 0 [] = (FLit 0 0, [ECall (CModerate 7 0)]).
Proof. reflexivity. Qed.

Example moderate_work_first_terms :
  take 2 (log_args (moderate_work (F := term_ops fsize) 7 1 []).1)
  = [FOfInt 8; FOfInt 9].
Proof. vm_compute. reflexivity. Qed.

(** C4. For [n >= 0], [intensive_computation n] returns the sum over [i]
    from 0 to [n - 1] and [j] from 1 to 1999 (the inner loop makes exactly
    1999 iterations) of the integer-truncated value of
    [sqrt(j * i) + 1.0001^j], the term [spec_term] writes out, accumulated
    in 64 bits; [intensive_computation 0] returns 0. *)
Theorem intensive_computation_sum {F : FloatOps} (n : Z) (w : list event) :
  0 ≤ n →
  (intensive_computation n w).1 = intensive_spec n ∧
  length (for_range 1 2000) = 1999%nat ∧
  (intensive_computation 0 w).1 = 0.
Proof.
  intros Hn. rewrite !intensive_computation_result.
  rewrite Z.max_r by done. repeat split.
Qed.

Lemma intensive_computation_sum_witness :
  0 ≤ 3 ∧
  ((intensive_computation (F := term_ops fsize) 3 []).1
     = intensive_spec (F := term_ops fsize) 3 ∧
   length (for_range 1 2000) = 1999%nat ∧
   (intensive_computation (F := term_ops fsize) 0 []).1 = 0).
Proof. split; [lia | apply intensive_computation_sum; lia]. Defined.

(** C5. For every [base] and [repetitions >= 0], [moderate_work] returns the
    total built by adding, for each iteration [i], the product
    [sin(base + i) * cos(base - i)] and then [log(k + base + 1)] for [k] from
    0 to 99 into one total that starts at 0.0 (the sums inside the calls are
    the program's [int] sums); with 0 repetitions it returns 0.0. *)
Theorem moderate_work_total {F : FloatOps} (base reps : Z) (w : list event) :
  0 ≤ reps →
  (moderate_work base reps w).1 = moderate_spec base (Z.to_nat reps) ∧
  (moderate_work base 0 w).1 = lit 0 0.
Proof. intros _. by rewrite !moderate_work_result. Qed.

Lemma moderate_work_total_witness :
  0 ≤ 2 ∧
  ((moderate_work (F := term_ops fsize) 7 2 []).1
     = moderate_spec (F := term_ops fsize) 7 (Z.to_nat 2) ∧
   (moderate_work (F := term_ops fsize) 7 0 []).1 = FLit 0 0).
Proof.
  split; [lia | apply (moderate_work_total (F := term_ops fsize)); lia].
Defined.

(** C6. [run_simulation] enters [intensive_computation] once, with 200, then
    [moderate_work] 50 times with base [10 * i] for [i] from 0 to 49 and 100
    repetitions, then [simple_task] 1000 times with ids 0 to 999, in that
    order, and prints the six tier-boundary banners and nothing else. *)
Theorem run_simulation_call_sequence {F : FloatOps} (w : list event) :
  let evs := simulation_trace (intensive_computation 200 []).1 in
  (run_simulation w).2 = w ++ evs ∧
  calls evs = CIntensive 200 :: moderate_calls ++ simple_calls ∧
  length (filter is_intensive (calls evs)) = 1%nat ∧
  length (filter is_moderate (calls evs)) = 50%nat ∧
  length (filter is_simple (calls evs)) = 1000%nat ∧
  stdout evs = banners (intensive_computation 200 []).1.
Proof.
  intros evs. split; [by rewrite run_simulation_run|].
  subst evs. generalize (intensive_computation 200 []).1 as r. intros r.
  rewrite calls_simulation_trace.
  repeat split; vm_compute; reflexivity.
Qed.

(** C7. The value returned by [intensive_computation] depends on [n] only:
    it is the same from any two traces, whether or not the call sleeps, and
    the call changes the trace only by its entry and the sleep; the value
    returned by [moderate_work] depends on [base] and [repetitions] only. *)
Theorem results_do_not_depend_on_world {F : FloatOps} :
  (∀ n w1 w2, (intensive_computation n w1).1 = (intensive_computation n w2).1) ∧
  (∀ n w, (intensive_computation n w).1 = intensive_spec (Z.max 0 n) ∧
          (intensive_computation n w).2 =
            w ++ ECall (CIntensive n)
              :: (if bool_decide (n < 10) then [ESleep (int_mul 50 n)] else [])) ∧
  (∀ base reps w1 w2,
     (moderate_work base reps w1).1 = (moderate_work base reps w2).1) ∧
  (∀ base reps w,
     (moderate_work base reps w).2 = w ++ [ECall (CModerate base reps)]).
Proof.
  split; [|split; [|split]].
  - intros n w1 w2. rewrite !intensive_computation_result. reflexivity.
  - intros n w. split; [apply intensive_computation_result|].
    rewrite intensive_computation_run. reflexivity.
  - intros base reps w1 w2. rewrite !moderate_work_result. reflexivity.
  - intros base reps w. rewrite moderate_work_run. reflexivity.
Qed.

(** C9, as amended. For [0 <= base <= INT_MAX - 100] and [repetitions >= 0],
    the arguments given to [log] inside [moderate_work] are, for each
    iteration, [k + base + 1] for [k] from 0 to 99, each at least 1; and
    every [moderate_work] call of [run_simulation] has [base = 10 * i] with
    [i] from 0 to 49, which is within that range. *)
Theorem log_arguments_at_least_one
    (trunc : fexpr → Z) (base reps : Z) (w : list event) :
  0 ≤ base ≤ INT_MAX - 100 →
  0 ≤ reps →
  log_args (moderate_work (F := term_ops trunc) base reps w).1
    = mjoin (replicate (Z.to_nat reps) (log_batch base)) ∧
  Forall (λ t, ∃ k, 0 ≤ k ≤ 99 ∧ t = FOfInt (k + base + 1) ∧ 1 ≤ k + base + 1)
         (log_args (moderate_work (F := term_ops trunc) base reps w).1) ∧
  ∀ (F : FloatOps) (b r : Z),
    CModerate b r ∈ calls (run_simulation (F := F) []).2 →
    ∃ i, 0 ≤ i ≤ 49 ∧ b = 10 * i ∧ r = 100 ∧ 0 ≤ b ≤ INT_MAX - 100.
Proof.
  intros Hb Hr.
  rewrite moderate_work_result, log_args_moderate_spec by done.
  split; [done|]. split.
  - apply Forall_join, Forall_replicate, log_batch_at_least_one. lia.
  - intros F b r. rewrite run_simulation_run. cbn [snd].
    rewrite app_nil_l, calls_simulation_trace.
    intros Hc. apply moderate_call_bases in Hc as (i & Hi & -> & ->).
    exists i. unfold INT_MAX. repeat split; lia.
Qed.

Lemma log_arguments_at_least_one_witness :
  0 ≤ 490 ≤ INT_MAX - 100 ∧ 0 ≤ 2 ∧
  (log_args (moderate_work (F := term_ops fsize) 490 2 []).1
     = mjoin (replicate (Z.to_nat 2) (log_batch 490)) ∧
   Forall (λ t, ∃ k, 0 ≤ k ≤ 99 ∧ t = FOfInt (k + 490 + 1) ∧ 1 ≤ k + 490 + 1)
          (log_args (moderate_work (F := term_ops fsize) 490 2 []).1) ∧
   ∀ (F : FloatOps) (b r : Z),
     CModerate b r ∈ calls (run_simulation (F := F) []).2 →
     ∃ i, 0 ≤ i ≤ 49 ∧ b = 10 * i ∧ r = 100 ∧ 0 ≤ b ≤ INT_MAX - 100).
Proof.
  split; [unfold INT_MAX; lia|]. split; [lia|].
  apply log_arguments_at_least_one; unfold INT_MAX; lia.
Defined.

(** C9, as first stated, fails at the top of the [int] range: with
    [base = INT_MAX] and one repetition the first argument given to [log] is
    [INT_MIN], so not every argument is at least 1. *)
Lemma log_argument_below_one_at_int_max :
  0 ≤ INT_MAX ∧ 0 ≤ 1 ∧
  log_args (moderate_work (F := term_ops fsize) INT_MAX 1 []).1 !! 0%nat
    = Some (FOfInt INT_MIN) ∧
  ¬ Forall (λ t, ∃ z, t = FOfInt z ∧ 1 ≤ z)
           (log_args (moderate_work (F := term_ops fsize) INT_MAX 1 []).1).
Proof.
  assert (H0 : log_args (moderate_work (F := term_ops fsize) INT_MAX 1 []).1
               !! 0%nat = Some (FOfInt INT_MIN))
    by (vm_compute; reflexivity).
  split; [done|]. split; [done|]. split; [exact H0|].
  intros Hall. eapply Forall_lookup_1 in Hall as (z & Hz & Hpos); [|exact H0].
  injection Hz as <-. unfold INT_MIN in Hpos. lia.
Qed.

(** C10. For [n <= 0], negative [n] included, the outer loop of
    [intensive_computation n] makes no iteration (so the inner loop is never
    entered) and the call returns 0. *)
Theorem intensive_computation_nonpositive
    {F : FloatOps} (n : Z) (w : list event) :
  n ≤ 0 →
  for_range 0 n = [] ∧ (intensive_computation n w).1 = 0.
Proof.
  intros Hn. split; [by apply for_range_empty|].
  rewrite intensive_computation_result.
  by rewrite Z.max_l by done.
Qed.

Lemma intensive_computation_nonpositive_witness :
  -5 ≤ 0 ∧
  (for_range 0 (-5) = [] ∧
   (intensive_computation (F := term_ops fsize) (-5) []).1 = 0).
Proof. split; [lia | apply intensive_computation_nonpositive; lia]. Defined.

(** *** Further facts about the workload functions *)

Lemma wrap_small_64 z :
  -9223372036854775808 ≤ z ≤ 9223372036854775807 → wrap 64 z = z.
Proof.
  unfold wrap. intros Hz.
  change (2 ^ (64 - 1)) with 9223372036854775808.
  change (2 ^ 64) with 18446744073709551616.
  rewrite Z.mod_small; lia.
Qed.

Lemma Zsum_app (f : Z → Z) l1 l2 : Zsum f (l1 ++ l2) = Zsum f l1 + Zsum f l2.
Proof.
  induction l1 as [|x l1 IH].
  - by rewrite app_nil_l, Zsum_nil.
  - rewrite <- app_comm_cons, !Zsum_cons, IH. lia.
Qed.

Lemma Zsum_bounds (f : Z → Z) (l : list Z) (B : Z) :
  (∀ x, x ∈ l → 0 ≤ f x ≤ B) →
  0 ≤ Zsum f l ≤ B * Z.of_nat (length l).
Proof.
  induction l as [|x l IH]; intros Hf.
  - rewrite Zsum_nil. cbn [length]. lia.
  - rewrite Zsum_cons. cbn [length].
    pose proof (Hf x (list_elem_of_here _ _)) as Hx.
    assert (0 ≤ Zsum f l ≤ B * Z.of_nat (length l)) as Hl
      by (apply IH; intros y Hy; apply Hf; by apply list_elem_of_further).
    rewrite Nat2Z.inj_succ, Z.mul_succ_r. lia.
Qed.

Lemma stdout_entry (w : list event) (c : call) :
  stdout (w ++ [ECall c]) = stdout w.
Proof. unfold stdout. rewrite omap_app. apply app_nil_r. Qed.

Lemma sleeps_entry (w : list event) (c : call) :
  sleeps (w ++ [ECall c]) = sleeps w.
Proof. unfold sleeps. rewrite omap_app. apply app_nil_r. Qed.

Lemma sleeps_simulation_trace (r : Z) : sleeps (simulation_trace r) = [].
Proof. vm_compute. reflexivity. Qed.

Section Counts.
Variable trunc : fexpr → Z.

Lemma count_op_add_logs (o : op) base (count : nat) (t : fexpr) :
  count_op o (add_logs (F := term_ops trunc) base count t)
  = (count_op o t
     + count * match o with OAdd | OLog | OOfInt => 1 | _ => 0 end)%nat.
Proof.
  induction count as [|c IH].
  - cbn [add_logs]. lia.
  - cbn [add_logs fadd flog of_int term_ops].
    cbn [count_op head]. rewrite IH.
    destruct o; simpl; lia.
Qed.

Lemma count_op_moderate_spec (o : op) base (r : nat) :
  count_op o (moderate_spec (F := term_ops trunc) base r)
  = ((if decide (o = OLit) then 1 else 0) + r * iteration_ops o)%nat.
Proof.
  induction r as [|r IH].
  - destruct o; reflexivity.
  - cbn [moderate_spec]. rewrite count_op_add_logs.
    cbn [fadd fmul fsin fcos of_int term_ops count_op head]. rewrite IH.
    destruct o; simpl; lia.
Qed.

End Counts.

Section MathSumFacts.
Context {F : FloatOps}.

Lemma add_logs_in_range base (count : nat) (t : double) :
  INT_MIN ≤ base → base + 100 ≤ INT_MAX → (count ≤ 100)%nat →
  add_logs base count t = add_logs_math base count t.
Proof.
  intros Hlo Hhi. induction count as [|c IH]; intros Hc.
  - reflexivity.
  - cbn [add_logs add_logs_math]. rewrite IH by lia.
    unfold int_add.
    rewrite (wrap_small_32 (Z.of_nat c + base))
      by (unfold INT_MIN, INT_MAX in *; lia).
    by rewrite wrap_small_32 by (unfold INT_MIN, INT_MAX in *; lia).
Qed.

Lemma moderate_spec_in_range base (bound r : nat) :
  INT_MIN ≤ base →
  INT_MIN ≤ base - Z.of_nat bound + 1 →
  base + Z.of_nat bound - 1 ≤ INT_MAX →
  base + 100 ≤ INT_MAX →
  (r ≤ bound)%nat →
  moderate_spec base r = moderate_math base r.
Proof.
  intros Hb Hlo Hhi Hlog. induction r as [|r IH]; intros Hr.
  - reflexivity.
  - cbn [moderate_spec moderate_math]. rewrite IH by lia.
    rewrite add_logs_in_range by (done || lia).
    unfold int_add, int_sub.
    rewrite (wrap_small_32 (base + Z.of_nat r))
      by (unfold INT_MIN, INT_MAX in *; lia).
    by rewrite wrap_small_32 by (unfold INT_MIN, INT_MAX in *; lia).
Qed.

End MathSumFacts.

(** X5. None of the three workload functions writes to the console, for
    any argument: [simple_task] prints nothing whether or not its id is a
    multiple of 100; and [moderate_work] and [simple_task] never sleep. *)
Theorem workload_functions_never_print {F : FloatOps} :
  (∀ n w, stdout (intensive_computation n w).2 = stdout w) ∧
  (∀ base reps w,
     stdout (moderate_work base reps w).2 = stdout w ∧
     sleeps (moderate_work base reps w).2 = sleeps w) ∧
  (∀ id w,
     stdout (simple_task id w).2 = stdout w ∧
     sleeps (simple_task id w).2 = sleeps w).
Proof.
  split; [|split].
  - intros n w. rewrite intensive_computation_run. cbn [snd].
    unfold stdout. rewrite omap_app.
    destruct (bool_decide (n < 10)); apply app_nil_r.
  - intros base reps w. rewrite moderate_work_run. cbn [snd].
    split; [apply stdout_entry | apply sleeps_entry].
  - intros id w. rewrite simple_task_run. cbn [snd].
    split; [apply stdout_entry | apply sleeps_entry].
Qed.

(** X6. For [iterations] below 10 and not below -42949672 (so that
    [50 * iterations] fits an [int]), [intensive_computation] requests
    exactly one sleep, of [50 * iterations] milliseconds, after its loops. *)
Theorem intensive_computation_sleep_request
    {F : FloatOps} (n : Z) (w : list event) :
  -42949672 ≤ n < 10 →
  (intensive_computation n w).2
    = w ++ [ECall (CIntensive n); ESleep (50 * n)].
Proof.
  intros Hn. rewrite intensive_computation_run. cbn [snd].
  rewrite bool_decide_eq_true_2 by lia.
  unfold int_mul. by rewrite wrap_small_32 by (unfold INT_MIN, INT_MAX; lia).
Qed.

Lemma intensive_computation_sleep_request_witness :
  -42949672 ≤ 3 < 10 ∧
  (intensive_computation (F := term_ops fsize) 3 []).2
    = [] ++ [ECall (CIntensive 3); ESleep (50 * 3)].
Proof.
  split; [lia | apply intensive_computation_sleep_request; lia].
Defined.

(** X7. The program as orchestrated never sleeps: neither [run_simulation]
    nor [main] adds a sleep to the trace, the one call of
    [intensive_computation] having 200 iterations. *)
Theorem program_never_sleeps
    {F : FloatOps} (start_time end_time : Z) (w : list event) :
  sleeps (run_simulation w).2 = sleeps w ∧
  sleeps (main start_time end_time w).2 = sleeps w.
Proof.
  split.
  - rewrite run_simulation_run. cbn [snd]. unfold sleeps at 1.
    rewrite omap_app. fold (sleeps w).
    fold (sleeps (simulation_trace (intensive_computation 200 []).1)).
    by rewrite sleeps_simulation_trace, app_nil_r.
  - unfold main. erewrite prof_bind_run by apply run_simulation_run.
    erewrite prof_bind_run by reflexivity.
    unfold mret, Prof_ret. cbn [snd]. unfold sleeps at 1.
    rewrite !omap_app. fold (sleeps w).
    fold (sleeps (simulation_trace (intensive_computation 200 []).1)).
    by rewrite sleeps_simulation_trace, !app_nil_r.
Qed.

(** X8. One more outer iteration adds one inner sum: for [n >= 0] the
    result for [n + 1] iterations is the result for [n], plus the 1999 terms
    of outer index [n], in 64 bits. *)
Theorem intensive_computation_step {F : FloatOps} (n : Z) (w : list event) :
  0 ≤ n →
  (intensive_computation (n + 1) w).1
    = ll_add (intensive_computation n w).1
             (Zsum (intensive_term n) (seqZ 1 1999)).
Proof.
  intros Hn. rewrite !intensive_computation_result.
  rewrite !Z.max_r by lia. rewrite !intensive_spec_terms. unfold ll_add.
  rewrite wrap_add_l. f_equal.
  assert (Hseq : seqZ 0 (n + 1) = seqZ 0 n ++ [n]).
  { replace (n + 1) with (Z.of_nat (S (Z.to_nat n))) by lia.
    rewrite seqZ_S, Z2Nat.id by done. by rewrite Z.add_0_l. }
  rewrite Hseq, Zsum_app, Zsum_cons, Zsum_nil. cbv beta.
  rewrite Z.add_0_r. reflexivity.
Qed.

Lemma intensive_computation_step_witness :
  0 ≤ 2 ∧
  (intensive_computation (F := term_ops fsize) (2 + 1) []).1
    = ll_add (intensive_computation (F := term_ops fsize) 2 []).1
             (Zsum (intensive_term (F := term_ops fsize) 2) (seqZ 1 1999)).
Proof. split; [lia | apply intensive_computation_step; lia]. Defined.

(** X9. When every term is between 0 and [B] and [n * 1999 * B] fits in 64
    bits, the accumulator of [intensive_computation] never wraps: the
    result is the exact sum of the terms, and lies between 0 and
    [n * 1999 * B]. *)
Theorem intensive_computation_no_overflow
    {F : FloatOps} (n B : Z) (w : list event) :
  0 ≤ n →
  (∀ i j, 0 ≤ i < n → 1 ≤ j ≤ 1999 → 0 ≤ intensive_term i j ≤ B) →
  n * 1999 * B ≤ 9223372036854775807 →
  (intensive_computation n w).1
    = Zsum (λ i, Zsum (intensive_term i) (seqZ 1 1999)) (seqZ 0 n) ∧
  0 ≤ (intensive_computation n w).1 ≤ n * 1999 * B.
Proof.
  intros Hn Hterm Hfit. rewrite intensive_computation_result.
  rewrite Z.max_r by done. rewrite intensive_spec_terms.
  set (total := Zsum _ (seqZ 0 n)).
  assert (Hsum : 0 ≤ total ≤ n * 1999 * B).
  { pose proof (Zsum_bounds
        (λ i, Zsum (intensive_term i) (seqZ 1 1999)) (seqZ 0 n) (B * 1999))
      as Hout.
    rewrite length_seqZ, Z2Nat.id in Hout by done.
    replace (n * 1999 * B) with (B * 1999 * n) by lia.
    apply Hout. intros i Hi. apply elem_of_seqZ in Hi.
    pose proof (Zsum_bounds (intensive_term i) (seqZ 1 1999) B) as Hin.
    rewrite length_seqZ in Hin.
    change (Z.of_nat (Z.to_nat 1999)) with 1999 in Hin.
    apply Hin. intros j Hj. apply elem_of_seqZ in Hj.
    apply Hterm; lia. }
  rewrite wrap_small_64 by lia. split; [reflexivity | lia].
Qed.

Lemma intensive_computation_no_overflow_witness :
  0 ≤ 3 ∧
  (∀ i j, 0 ≤ i < 3 → 1 ≤ j ≤ 1999 →
     0 ≤ intensive_term (F := term_ops fsize) i j ≤ 8) ∧
  3 * 1999 * 8 ≤ 9223372036854775807 ∧
  ((intensive_computation (F := term_ops fsize) 3 []).1
     = Zsum (λ i, Zsum (intensive_term (F := term_ops fsize) i) (seqZ 1 1999))
            (seqZ 0 3) ∧
   0 ≤ (intensive_computation (F := term_ops fsize) 3 []).1 ≤ 3 * 1999 * 8).
Proof.
  assert (Hterm : ∀ i j, 0 ≤ i < 3 → 1 ≤ j ≤ 1999 →
            0 ≤ intensive_term (F := term_ops fsize) i j ≤ 8)
    by (intros i j _ _; vm_compute; split; discriminate).
  split; [lia|]. split; [exact Hterm|]. split; [lia|].
  apply intensive_computation_no_overflow; [lia | exact Hterm | lia].
Defined.

(** X10. For [repetitions <= 0], negative values included, the loop of
    [moderate_work] makes no iteration and the call returns 0.0, for any
    [base]. *)
Theorem moderate_work_nonpositive
    {F : FloatOps} (base reps : Z) (w : list event) :
  reps ≤ 0 →
  for_range 0 reps = [] ∧ (moderate_work base reps w).1 = lit 0 0.
Proof.
  intros Hr. split; [by apply for_range_empty|].
  rewrite moderate_work_result.
  by replace (Z.to_nat reps) with 0%nat by lia.
Qed.

Lemma moderate_work_nonpositive_witness :
  -4 ≤ 0 ∧
  (for_range 0 (-4) = [] ∧
   (moderate_work (F := term_ops fsize) 7 (-4) []).1 = FLit 0 0).
Proof.
  split; [lia | apply (moderate_work_nonpositive (F := term_ops fsize)); lia].
Defined.

(** X11. The work [moderate_work] does is proportional to [repetitions] and
    the same for every [base]: each iteration applies one sine, one cosine,
    one product, 100 logarithms, 101 additions and 102 conversions from
    [int], and no square root or power; the literal 0.0 is used once. *)
Theorem moderate_work_operation_counts
    (trunc : fexpr → Z) (o : op) (base reps : Z) (w : list event) :
  count_op o (moderate_work (F := term_ops trunc) base reps w).1
  = ((if decide (o = OLit) then 1 else 0)
     + Z.to_nat reps * iteration_ops o)%nat.
Proof. rewrite moderate_work_result. apply count_op_moderate_spec. Qed.

(** X12. When [base - i] and [base + i] stay within [int] for every
    iteration [i] and [base + 100] does too, no sum inside [moderate_work]
    wraps: the total is the one with [base + i], [base - i] and
    [k + base + 1] taken in the integers. *)
Theorem moderate_work_without_overflow
    {F : FloatOps} (base reps : Z) (w : list event) :
  0 ≤ reps →
  INT_MIN ≤ base →
  INT_MIN ≤ base - reps + 1 →
  base + reps - 1 ≤ INT_MAX →
  base + 100 ≤ INT_MAX →
  (moderate_work base reps w).1 = moderate_math base (Z.to_nat reps).
Proof.
  intros Hr Hb Hlo Hhi Hlog. rewrite moderate_work_result.
  apply moderate_spec_in_range with (Z.to_nat reps); try done; lia.
Qed.

Lemma moderate_work_without_overflow_witness :
  0 ≤ 100 ∧ INT_MIN ≤ 490 ∧ INT_MIN ≤ 490 - 100 + 1 ∧
  490 + 100 - 1 ≤ INT_MAX ∧ 490 + 100 ≤ INT_MAX ∧
  (moderate_work (F := term_ops fsize) 490 100 []).1
    = moderate_math (F := term_ops fsize) 490 (Z.to_nat 100).
Proof.
  unfold INT_MIN, INT_MAX.
  do 5 (split; [lia|]).
  apply (moderate_work_without_overflow (F := term_ops fsize));
    unfold INT_MIN, INT_MAX; lia.
Defined.

(** X13. Every [moderate_work] call that [run_simulation] makes, with base
    [i * 10] for [i] from 0 to 49 and 100 repetitions, is free of
    wrap-around: its result is the total with the sums taken in the
    integers, at base [10 * i]. *)
Theorem run_simulation_moderate_calls_exact
    {F : FloatOps} (i : Z) (w : list event) :
  0 ≤ i < 50 →
  (moderate_work (int_mul i 10) 100 w).1 = moderate_math (10 * i) 100.
Proof.
  intros Hi. unfold int_mul.
  rewrite wrap_small_32 by (unfold INT_MIN, INT_MAX; lia).
  rewrite moderate_work_result. replace (i * 10) with (10 * i) by lia.
  change (Z.to_nat 100) with 100%nat.
  apply moderate_spec_in_range with 100%nat;
    unfold INT_MIN, INT_MAX; lia.
Qed.

Lemma run_simulation_moderate_calls_exact_witness :
  0 ≤ 49 < 50 ∧
  (moderate_work (F := term_ops fsize) (int_mul 49 10) 100 []).1
    = moderate_math (F := term_ops fsize) (10 * 49) 100.
Proof.
  split; [lia|].
  apply (run_simulation_moderate_calls_exact (F := term_ops fsize)); lia.
Defined.

(** X14. For any two clock readings [main] returns 0 and prints the six
    banners of [run_simulation] and then, last, the elapsed-time line.  The
    number on that line is the difference of the readings converted to
    milliseconds with truncation toward zero (the readings being integers
    in nanoseconds): it is non-negative when the end reading is not before
    the start reading, and non-positive otherwise. *)
Theorem main_reports_elapsed_time
    {F : FloatOps} (start_time end_time : Z) (w : list event) :
  let r := (intensive_computation 200 []).1 in
  let d := Z.quot (end_time - start_time) 1000000 in
  main start_time end_time w
    = (0, w ++ simulation_trace r ++ [EOut (time_line d)]) ∧
  stdout (simulation_trace r ++ [EOut (time_line d)])
    = banners r ++ [time_line d] ∧
  (start_time ≤ end_time → 0 ≤ d) ∧
  (end_time ≤ start_time → d ≤ 0).
Proof.
  intros r d. split; [|split; [|split]].
  - unfold main. erewrite prof_bind_run by apply run_simulation_run.
    erewrite prof_bind_run by reflexivity.
    unfold mret, Prof_ret. by rewrite <- app_assoc.
  - generalize r d. intros r' d'. vm_compute. reflexivity.
  - intros Ht. subst d. apply Z.quot_pos; lia.
  - intros Ht. subst d.
    rewrite <- (Z.opp_involutive (end_time - start_time)), Z.quot_opp_l by lia.
    pose proof (Z.quot_pos (- (end_time - start_time)) 1000000). lia.
Qed.

End ProfilingFacts.

(** C8. Both programs return exit code 0: [memory_example] from any state
    and for any bits in the uninitialised scalar and the uninitialised heap
    cells, without a memory fault; [profiling_example] for any clock
    readings and any implementation of the floating-point operations. *)
Theorem both_programs_exit_zero :
  (∀ (g : MemoryExample.garbage) (s : MemoryExample.state),
     ∃ s', MemoryExample.main g s = inr (0, s')) ∧
  (∀ (F : FloatOps) (start_time end_time : Z)
     (w : list ProfilingExample.event),
     (ProfilingExample.main start_time end_time w).1 = 0).
Proof.
  split.
  - apply MemoryFacts.main_run.
  - intros F. apply ProfilingFacts.profiling_main_run.
Qed.
